(** * BriefBase SRA finder: a shallow embedding of [main.py]

    The postcode helpers, the upstream host-fallback call and the [/search]
    endpoint of the FastAPI service, translated into Rocq.

    Character model: Python [str] values are read as strings of 7-bit ASCII
    characters (the alphabet of postcodes).  On that range [str.isspace], the
    regex class [\s], [str.upper] and [str.lower] are written out below as
    Python defines them. *)

From Stdlib Require Import Strings.String Strings.Ascii Lists.List Bool.Bool
  ZArith Arith Lia.
Import ListNotations.
Open Scope bool_scope.
Open Scope string_scope.

(* ------------------------------------------------------------------ *)
(** ** Characters *)

(** [str.isspace] on ASCII, which is also what the regex class [\s] matches:
    TAB, LF, VT, FF, CR (9..13), the separators 28..31 and SPACE (32). *)
Definition is_space (c : ascii) : bool :=
  let n := nat_of_ascii c in
  (Nat.leb 9 n && Nat.leb n 13) || (Nat.leb 28 n && Nat.leb n 32).

(** [str.upper] / [str.lower] on one ASCII character. *)
Definition upper_char (c : ascii) : ascii :=
  let n := nat_of_ascii c in
  if Nat.leb 97 n && Nat.leb n 122 then ascii_of_nat (n - 32) else c.

Definition lower_char (c : ascii) : ascii :=
  let n := nat_of_ascii c in
  if Nat.leb 65 n && Nat.leb n 90 then ascii_of_nat (n + 32) else c.

Fixpoint upper (s : string) : string :=
  match s with
  | EmptyString => EmptyString
  | String c r => String (upper_char c) (upper r)
  end.

Fixpoint lower (s : string) : string :=
  match s with
  | EmptyString => EmptyString
  | String c r => String (lower_char c) (lower r)
  end.

(** [re.sub(r"\s+", " ", s)]: every maximal run of whitespace becomes one
    space.  [in_run] records that the previous character was whitespace
    (and so already produced its space). *)
Fixpoint sub_ws (in_run : bool) (s : string) : string :=
  match s with
  | EmptyString => EmptyString
  | String c r =>
      if is_space c then
        if in_run then sub_ws true r else String " " (sub_ws true r)
      else String c (sub_ws false r)
  end.

(** [str.lstrip()] and [str.rstrip()] (no argument: strip whitespace). *)
Fixpoint lstrip (s : string) : string :=
  match s with
  | EmptyString => EmptyString
  | String c r => if is_space c then lstrip r else s
  end.

Fixpoint rstrip (s : string) : string :=
  match s with
  | EmptyString => EmptyString
  | String c r =>
      let r' := rstrip r in
      match r' with
      | EmptyString => if is_space c then EmptyString else String c EmptyString
      | _ => String c r'
      end
  end.

(** [str.strip()] *)
Definition strip (s : string) : string := rstrip (lstrip s).

(** Python's [sub in s] for strings. *)
Fixpoint contains (sub s : string) : bool :=
  if prefix sub s then true
  else match s with
       | EmptyString => false
       | String _ r => contains sub r
       end.

(* ------------------------------------------------------------------ *)
(** ** Postcode helpers *)

(** [normalise_postcode(pc)]: [(pc or "").upper()], then
    [re.sub(r"\s+", " ", pc).strip()].  The parameter is a [str]
    ([pc or ""] only maps [None] and [""] to [""]). *)
Definition normalise_postcode (pc : string) : string :=
  let pc := upper pc in
  strip (sub_ws false pc).

(** [pc.split(" ", 1)[0]]: everything before the first space. *)
Fixpoint before_space (s : string) : string :=
  match s with
  | EmptyString => EmptyString
  | String c r => if Ascii.eqb c " " then EmptyString else String c (before_space r)
  end.

(** [" " in pc] *)
Fixpoint has_space (s : string) : bool :=
  match s with
  | EmptyString => false
  | String c r => Ascii.eqb c " " || has_space r
  end.

(** [outward_code(pc)] *)
Definition outward_code (pc : string) : string :=
  let pc := normalise_postcode pc in
  if has_space pc then before_space pc
  else if Nat.ltb 3 (String.length pc) then substring 0 (String.length pc - 3) pc
  else pc.

(* ------------------------------------------------------------------ *)
(** ** [UK_PC_RE]

    The pattern is compiled with [re.IGNORECASE | re.VERBOSE] (the layout
    blanks of the pattern are not part of it) and used with [re.match]:
<<
    ^\s* ( GIR\s?0AA
         | (?: [A-PR-UWYZ][0-9][0-9]?
             | [A-PR-UWYZ][A-HK-Y][0-9][0-9]?
             | [A-PR-UWYZ][0-9][A-HJKPSTUW]?
             | [A-PR-UWYZ][A-HK-Y][0-9][ABEHMNPRVWXY]? )
           \s?[0-9][ABD-HJLNP-UW-Z]{2} )
    \s*$
>>
    The matcher below is a backtracking matcher: [rsuffixes r s] lists, in
    the order the backtracking engine tries them, the remainders of [s]
    after [r] has matched a prefix of [s]. *)

Inductive regex : Type :=
| RClass (p : ascii -> bool)          (* one character of a class *)
| RSeq (r1 r2 : regex)                (* r1 r2 *)
| RAlt (r1 r2 : regex)                (* r1|r2 *)
| ROpt (r : regex)                    (* r?, greedy *)
| RStar (p : ascii -> bool).          (* [class]*, greedy *)

(** [re.IGNORECASE]: a character matches a class when it, its lower-case or
    its upper-case form does. *)
Definition ic (p : ascii -> bool) (c : ascii) : bool :=
  p c || p (lower_char c) || p (upper_char c).

Fixpoint star_suffixes (p : ascii -> bool) (s : string) : list string :=
  match s with
  | EmptyString => [EmptyString]
  | String c r => if p c then app (star_suffixes p r) [s] else [s]
  end.

Fixpoint rsuffixes (r : regex) (s : string) : list string :=
  match r with
  | RClass p =>
      match s with
      | EmptyString => []
      | String c t => if ic p c then [t] else []
      end
  | RSeq r1 r2 => flat_map (rsuffixes r2) (rsuffixes r1 s)
  | RAlt r1 r2 => app (rsuffixes r1 s) (rsuffixes r2 s)
  | ROpt r1 => app (rsuffixes r1 s) [s]
  | RStar p => star_suffixes (ic p) s
  end.

(** [$] without [re.MULTILINE]: at the end of the string or just before a
    final newline. ([^] holds at position 0, where [re.match] starts.) *)
Definition at_end (t : string) : bool :=
  match t with
  | EmptyString => true
  | String c EmptyString => Ascii.eqb c "010"%char
  | _ => false
  end.

Definition in_rng (lo hi c : ascii) : bool :=
  Nat.leb (nat_of_ascii lo) (nat_of_ascii c) && Nat.leb (nat_of_ascii c) (nat_of_ascii hi).

Definition is_chr (x c : ascii) : bool := Ascii.eqb x c.

(** [[0-9]] *)
Definition cls_digit := in_rng "0" "9".
(** [[A-PR-UWYZ]] *)
Definition cls_area1 (c : ascii) : bool :=
  in_rng "A" "P" c || in_rng "R" "U" c || is_chr "W" c || is_chr "Y" c || is_chr "Z" c.
(** [[A-HK-Y]] *)
Definition cls_area2 (c : ascii) : bool := in_rng "A" "H" c || in_rng "K" "Y" c.
(** [[A-HJKPSTUW]] *)
Definition cls_district3 (c : ascii) : bool :=
  in_rng "A" "H" c || is_chr "J" c || is_chr "K" c || is_chr "P" c
  || is_chr "S" c || is_chr "T" c || is_chr "U" c || is_chr "W" c.
(** [[ABEHMNPRVWXY]] *)
Definition cls_district4 (c : ascii) : bool :=
  is_chr "A" c || is_chr "B" c || is_chr "E" c || is_chr "H" c || is_chr "M" c
  || is_chr "N" c || is_chr "P" c || is_chr "R" c || is_chr "V" c || is_chr "W" c
  || is_chr "X" c || is_chr "Y" c.
(** [[ABD-HJLNP-UW-Z]] *)
Definition cls_unit (c : ascii) : bool :=
  is_chr "A" c || is_chr "B" c || in_rng "D" "H" c || is_chr "J" c || is_chr "L" c
  || is_chr "N" c || in_rng "P" "U" c || in_rng "W" "Z" c.

Definition lit (x : ascii) : regex := RClass (is_chr x).
Definition ws : regex := RClass is_space.

(** [GIR\s?0AA] *)
Definition re_gir : regex :=
  RSeq (lit "G") (RSeq (lit "I") (RSeq (lit "R") (RSeq (ROpt ws)
    (RSeq (lit "0") (RSeq (lit "A") (lit "A")))))).

(** The four outward-code alternatives of the [(?:...)] group. *)
Definition re_outward : regex :=
  RAlt (RSeq (RClass cls_area1) (RSeq (RClass cls_digit) (ROpt (RClass cls_digit))))
  (RAlt (RSeq (RClass cls_area1) (RSeq (RClass cls_area2)
           (RSeq (RClass cls_digit) (ROpt (RClass cls_digit)))))
  (RAlt (RSeq (RClass cls_area1) (RSeq (RClass cls_digit) (ROpt (RClass cls_district3))))
        (RSeq (RClass cls_area1) (RSeq (RClass cls_area2)
           (RSeq (RClass cls_digit) (ROpt (RClass cls_district4))))))).

(** [\s?[0-9][ABD-HJLNP-UW-Z]{2}] after the outward code. *)
Definition re_postcode : regex :=
  RSeq re_outward (RSeq (ROpt ws)
    (RSeq (RClass cls_digit) (RSeq (RClass cls_unit) (RClass cls_unit)))).

(** The capture group and the surrounding [\s*]. *)
Definition re_core : regex := RAlt re_gir re_postcode.
Definition UK_PC_RE : regex := RSeq (RStar is_space) (RSeq re_core (RStar is_space)).

(** [bool(UK_PC_RE.match(s))] *)
Definition uk_pc_match (s : string) : bool :=
  existsb at_end (rsuffixes UK_PC_RE s).

(* ------------------------------------------------------------------ *)
(** ** Upstream records

    The JSON objects the endpoint reads.  A key that is absent or [null] is
    [None]; [d.get(k)] is the projection. *)

Record address : Type := mkAddress {
  PostCode : option string;
  Address1 : option string;
  Town : option string
}.

Record office : Type := mkOffice {
  Address : option address
}.

Record organisation : Type := mkOrganisation {
  OrganisationID : option string;
  OrganisationName : option string;
  Email : option string;
  GeneralEmail : option string;
  Phone : option string;
  AuthorisationStatus : option string;
  Offices : option (list office)
}.

(** The [Organisations] payload: [{"value": [...]}]. *)
Record payload : Type := mkPayload {
  value : option (list organisation)
}.

(** One entry of the [results] list of [/search]. *)
Record search_result : Type := mkResult {
  r_OrganisationID : option string;
  r_Name : option string;
  r_Email : option string;
  r_Phone : option string;
  r_Postcode : option string;
  r_Address1 : option string;
  r_Town : option string;
  r_AuthorisationStatus : option string
}.

(** Python's [a or b] on optional strings: [None] and [""] are falsy. *)
Definition py_or (a b : option string) : option string :=
  match a with
  | Some s => if String.eqb s "" then b else a
  | None => b
  end.

(** [x or ""] for an optional string. *)
Definition or_empty (a : option string) : string :=
  match a with Some s => s | None => "" end.

(** [d.get(k, []) or []] for an optional list. *)
Definition or_nil {A} (l : option (list A)) : list A :=
  match l with Some l => l | None => [] end.

(** [office.get("Address", {}) or {}]: a missing address reads as [{}]. *)
Definition empty_address : address := mkAddress None None None.

Definition office_address (o : office) : address :=
  match Address o with Some a => a | None => empty_address end.

(** [looks_active(org)] *)
Definition looks_active (org : organisation) : bool :=
  let status := lower (strip (or_empty (AuthorisationStatus org))) in
  existsb (fun w => contains w status)
    ["authorised"; "registered"; "authorised body"; "recognised body"].

(** [pc = addrs.get("PostCode") or ""] inside [office_matches_postcode]. *)
Definition office_postcode (o : office) : string :=
  or_empty (PostCode (office_address o)).

(** [office_matches_postcode(office, target_pc)] *)
Definition office_matches_postcode (o : office) (target_pc : string) : bool :=
  let pc := office_postcode o in
  if String.eqb pc "" then false
  else String.eqb (outward_code pc) (outward_code target_pc).

(** The dictionary appended to [results] for [org] and its matched [office]. *)
Definition project (org : organisation) (o : office) : search_result :=
  let addrs := office_address o in
  {| r_OrganisationID := OrganisationID org;
     r_Name := OrganisationName org;
     r_Email := py_or (Email org) (GeneralEmail org);
     r_Phone := Phone org;
     r_Postcode := PostCode addrs;
     r_Address1 := Address1 addrs;
     r_Town := Town addrs;
     r_AuthorisationStatus := AuthorisationStatus org |}.

(** The inner [for office in ...] loop with its [break]: the result of the
    first matching office, if any. *)
Fixpoint scan_offices (org : organisation) (pc_clean : string) (offs : list office)
  : option search_result :=
  match offs with
  | [] => None
  | o :: rest =>
      if office_matches_postcode o pc_clean then Some (project org o)
      else scan_offices org pc_clean rest
  end.

(** The outer [for org in data.get("value", []) or []] loop, threading the
    [results] list that [results.append] extends. *)
Fixpoint filter_orgs (pc_clean : string) (orgs : list organisation)
  (results : list search_result) : list search_result :=
  match orgs with
  | [] => results
  | org :: rest =>
      if negb (looks_active org) then filter_orgs pc_clean rest results
      else
        let results :=
          match scan_offices org pc_clean (or_nil (Offices org)) with
          | Some r => app results [r]
          | None => results
          end in
        filter_orgs pc_clean rest results
  end.

(* ------------------------------------------------------------------ *)
(** ** [call_sra_json]: the host-fallback fetch *)

(** [fastapi.HTTPException(status_code, detail)] *)
Inductive http_exception : Type :=
| HTTPException (status_code : Z) (detail : string).

(** A handler either returns a value or raises an [HTTPException]. *)
Inductive outcome (A : Type) : Type :=
| Ret (a : A)
| Raise (e : http_exception).
Arguments Ret {A} a.
Arguments Raise {A} e.

(** [SRA_HOSTS], in priority order. *)
Definition SRA_HOSTS : list string :=
  ["https://sra-prod-api.microsites.uk/datashare/api/v1";
   "https://sra-prod-api.azure-api.net/datashare/api/v1"].

(** [s.rstrip("/")] and [s.lstrip("/")] *)
Fixpoint lstrip_slash (s : string) : string :=
  match s with
  | String "/" r => lstrip_slash r
  | _ => s
  end.

Fixpoint rstrip_slash (s : string) : string :=
  match s with
  | EmptyString => EmptyString
  | String c r =>
      match rstrip_slash r with
      | EmptyString => if Ascii.eqb c "/" then EmptyString else String c EmptyString
      | r' => String c r'
      end
  end.

(** [f"{base.rstrip('/')}/{path.lstrip('/')}"] *)
Definition request_url (base path : string) : string :=
  rstrip_slash base ++ "/" ++ lstrip_slash path.

Section Fetch.

(** The type of the decoded JSON body. *)
Variable J : Type.

(** A response of [requests.get]: the status code, [resp.text], and what
    [resp.json()] gives: the decoded body, or the message of the
    [requests.exceptions.JSONDecodeError] it raises. *)
Record response : Type := mkResponse {
  status : Z;
  text : string;
  json : string + J
}.

(** What [requests.get(url, headers=HEADERS, timeout=timeout)] does: return
    a response, raise [SSLError], or raise another [RequestException]
    (connection refused, DNS failure, timeout, ...), each with its message. *)
Inductive get_result : Type :=
| Got (r : response)
| SSLFailure (msg : string)
| NetworkFailure (msg : string).

(** The network, as seen by [requests.get] on a URL. *)
Variable requests_get : string -> get_result.

(** [resp.raise_for_status()] raises [HTTPError] for [400 <= status < 600]. *)
Definition raises_for_status (code : Z) : bool := (400 <=? code)%Z && (code <? 600)%Z.

(** The body of the [try] for one [base]: [Left j] when [return resp.json()]
    is reached, [Right last_error] with the message an [except] clause sets.
    [resp.json()] raising [JSONDecodeError] is a [RequestException]
    (requests >= 2.27) and is handled by the last [except]. *)
Definition try_host (path base : string) : J + string :=
  let url := request_url base path in
  match requests_get url with
  | Got resp =>
      if raises_for_status (status resp) then
        inr ("HTTPError on " ++ base ++ ": " ++ substring 0 500 (text resp))
      else
        match json resp with
        | inr j => inl j
        | inl msg => inr ("Network error on " ++ base ++ ": " ++ msg)
        end
  | SSLFailure msg => inr ("SSLError on " ++ base ++ ": " ++ msg)
  | NetworkFailure msg => inr ("Network error on " ++ base ++ ": " ++ msg)
  end.

(** [f"{last_error}"] for [last_error] of [None] or a message. *)
Definition show_last_error (e : option string) : string :=
  match e with Some m => m | None => "None" end.

(** The [for base in SRA_HOSTS] loop, threading [last_error]; the first
    component lists the hosts a request was sent to, in order. *)
Fixpoint call_loop (path : string) (hosts : list string) (last_error : option string)
  : list string * outcome J :=
  match hosts with
  | [] =>
      ([], Raise (HTTPException 502
                   ("SRA API network error: " ++ show_last_error last_error)))
  | base :: rest =>
      match try_host path base with
      | inl j => ([base], Ret j)
      | inr e =>
          let (tried, res) := call_loop path rest (Some e) in (base :: tried, res)
      end
  end.

(** [call_sra_json(path)] over a host list. *)
Definition call_sra_json_hosts (hosts : list string) (path : string) : list string * outcome J :=
  call_loop path hosts None.

(** [call_sra_json(path)] *)
Definition call_sra_json (path : string) : list string * outcome J :=
  call_sra_json_hosts SRA_HOSTS path.

End Fetch.

Arguments Got {J} r.
Arguments SSLFailure {J} msg.
Arguments NetworkFailure {J} msg.
Arguments mkResponse {J} status text json.
Arguments status {J} r.
Arguments text {J} r.
Arguments json {J} r.

(* ------------------------------------------------------------------ *)
(** ** [/search] *)

(** The JSON body [{"count": len(results), "results": results}]. *)
Record search_response : Type := mkSearchResponse {
  count : nat;
  results : list search_result
}.

(** [search_firms(postcode)] against the network [net]: the hosts
    requested and the response or the raised [HTTPException]. *)
Definition search_firms (net : string -> get_result payload) (postcode : string)
  : list string * outcome search_response :=
  let pc_clean := normalise_postcode postcode in
  if negb (uk_pc_match pc_clean) then
    ([], Raise (HTTPException 422 "Please provide a valid UK postcode."))
  else
    let (tried, res) := call_sra_json payload net "Organisations" in
    match res with
    | Raise e => (tried, Raise e)
    | Ret data =>
        let rs := filter_orgs pc_clean (or_nil (value data)) [] in
        (tried, Ret {| count := length rs; results := rs |})
    end.

(* ------------------------------------------------------------------ *)
(** ** [/probe] *)

(** One dictionary of the [probe] list: [{"host", "ok", "status",
    "sample"}] for a response, [{"host", "ok": False, "error"}] when
    [requests.get] raised. *)
Inductive probe_entry : Type :=
| ProbeResponse (host : string) (ok : bool) (status_code : Z) (sample : string)
| ProbeError (host : string) (error : string).



(** The body of the [for base in SRA_HOSTS] loop of [probe()]: [r.ok] is
    [False] exactly when [raise_for_status] would raise; the sample is
    [(r.text or "")[:300]]; any exception ([except Exception]) gives an
    error entry with [str(e)]. *)
Definition probe_one {J} (net : string -> get_result J) (base : string) : probe_entry :=
  let url := rstrip_slash base ++ "/Organisations?$top=1" in
  match net url with
  | Got r => ProbeResponse base (negb (raises_for_status (status r))) (status r)
                           (substring 0 300 (text r))
  | SSLFailure msg => ProbeError base msg
  | NetworkFailure msg => ProbeError base msg
  end.

(** [probe()] over a host list: the [results] list, in host order. *)
Definition probe_hosts {J} (net : string -> get_result J) (hosts : list string)
  : list probe_entry :=
  map (probe_one net) hosts.

(** [probe()]: [{"probe": results}]. *)
Definition probe {J} (net : string -> get_result J) : list probe_entry :=
  probe_hosts net SRA_HOSTS.

(* ------------------------------------------------------------------ *)
(** ** Auxiliary notions used by the proofs *)

(** [good prev s]: every whitespace character of [s] is a plain space, none
    follows another one, and none comes first when [prev] holds. *)
Fixpoint good (prev : bool) (s : string) : bool :=
  match s with
  | EmptyString => true
  | String c r =>
      if is_space c then negb prev && Ascii.eqb c " " && good true r
      else good false r
  end.

(** The first character left by [lstrip] is not whitespace. *)
Definition head_ok (s : string) : Prop :=
  match s with EmptyString => True | String c _ => is_space c = false end.

(** Every character of a string satisfies [p]. *)
Fixpoint all_chars (p : ascii -> bool) (s : string) : bool :=
  match s with
  | EmptyString => true
  | String c r => p c && all_chars p r
  end.

(** No character of [s] is whitespace. *)
Definition no_space_chars (s : string) : bool := all_chars (fun c => negb (is_space c)) s.

(** The strings a regex matches, as the usual denotation. *)
Fixpoint lang (r : regex) (w : string) : Prop :=
  match r with
  | RClass p => exists c, w = String c EmptyString /\ ic p c = true
  | RSeq r1 r2 => exists w1 w2, w = w1 ++ w2 /\ lang r1 w1 /\ lang r2 w2
  | RAlt r1 r2 => lang r1 w \/ lang r2 w
  | ROpt r1 => lang r1 w \/ w = EmptyString
  | RStar p => all_chars (ic p) w = true
  end.


(** ** The UK postcode grammar, written by shapes

    A second description of what [UK_PC_RE] accepts, to compare the matcher
    with: an outward code of 2 to 4 characters (area letter, optional second
    area letter, district digit, optional second digit or district letter),
    an optional single whitespace separator, and an inward code of a sector
    digit and two unit letters; or the literal [GIR 0AA].  Letters compare
    case-insensitively ([ic]). *)

Definition sep_ok (w : string) : bool :=
  match w with
  | EmptyString => true
  | String c EmptyString => is_space c
  | _ => false
  end.

Definition outward_ok (o : string) : bool :=
  match o with
  | String a (String b EmptyString) => ic cls_area1 a && ic cls_digit b
  | String a (String b (String c EmptyString)) =>
      ic cls_area1 a &&
      ((ic cls_digit b && ic cls_digit c) || (ic cls_area2 b && ic cls_digit c)
       || (ic cls_digit b && ic cls_district3 c))
  | String a (String b (String c (String d EmptyString))) =>
      ic cls_area1 a && ic cls_area2 b && ic cls_digit c
      && (ic cls_digit d || ic cls_district4 d)
  | _ => false
  end.

Definition inward_ok (i : string) : bool :=
  match i with
  | String d (String u1 (String u2 EmptyString)) =>
      ic cls_digit d && ic cls_unit u1 && ic cls_unit u2
  | _ => false
  end.

Definition gir_tail_ok (w : string) : bool :=
  match w with
  | String z (String a1 (String a2 EmptyString)) =>
      ic (is_chr "0") z && ic (is_chr "A") a1 && ic (is_chr "A") a2
  | _ => false
  end.

Definition gir_ok (g : string) : bool :=
  match g with
  | String x (String y (String z rest)) =>
      ic (is_chr "G") x && ic (is_chr "I") y && ic (is_chr "R") z &&
      match rest with
      | String sp (String _ (String _ (String _ EmptyString)) as tail) =>
          is_space sp && gir_tail_ok tail
      | _ => gir_tail_ok rest
      end
  | _ => false
  end.

(** A whole postcode (without surrounding whitespace). *)
Definition postcode_shape (c : string) : Prop :=
  gir_ok c = true \/
  exists o sep i, c = o ++ sep ++ i /\ outward_ok o = true /\ sep_ok sep = true
                  /\ inward_ok i = true.

(** ** Spec-side descriptions

    The following definitions follow the words of the specification (not the
    source); they are compared with the translations above. *)

(** [filterAndProject]: for each active organisation, in input order, one
    result for the first office that matches, if any.  The result's email is
    the primary [Email] when present and non-empty, else [GeneralEmail]. *)
Definition spec_result (org : organisation) (o : office) : search_result :=
  let a := office_address o in
  {| r_OrganisationID := OrganisationID org;
     r_Name := OrganisationName org;
     r_Email := match Email org with
                | Some e => if String.eqb e "" then GeneralEmail org else Some e
                | None => GeneralEmail org
                end;
     r_Phone := Phone org;
     r_Postcode := PostCode a;
     r_Address1 := Address1 a;
     r_Town := Town a;
     r_AuthorisationStatus := AuthorisationStatus org |}.

Definition filter_and_project_spec (pc : string) (orgs : list organisation)
  : list search_result :=
  flat_map
    (fun org =>
       if looks_active org then
         match find (fun o => office_matches_postcode o pc) (or_nil (Offices org)) with
         | Some o => [spec_result org o]
         | None => []
         end
       else [])
    orgs.

(** A host [delivers] [j] when the GET on its URL returns a response that is
    not an HTTP error ([raise_for_status] passes) and whose body decodes to
    [j]. *)
Definition delivers {J} (net : string -> get_result J) (path base : string) (j : J) : Prop :=
  exists resp, net (request_url base path) = Got resp
               /\ raises_for_status (status resp) = false /\ json resp = inr j.

(** The same with the specification's success condition: a 2xx status. *)
Definition delivers_2xx {J} (net : string -> get_result J) (path base : string) (j : J)
  : Prop :=
  exists resp, net (request_url base path) = Got resp
               /\ (200 <= status resp < 300)%Z /\ json resp = inr j.

(** An office whose address record is missing, or whose [PostCode] is
    missing or empty. *)
Definition office_malformed (o : office) : Prop :=
  Address o = None \/
  exists a, Address o = Some a /\ (PostCode a = None \/ PostCode a = Some "").

(* ================================================================== *)
(** * Properties *)

(** Facts about single characters are decided by enumerating [ascii]. *)
Ltac ascii_cases c :=
  destruct c as [[] [] [] [] [] [] [] []]; reflexivity.

Lemma upper_char_idem (c : ascii) : upper_char (upper_char c) = upper_char c.
Proof. ascii_cases c. Qed.

Lemma is_space_upper_char (c : ascii) : is_space (upper_char c) = is_space c.
Proof. ascii_cases c. Qed.

Lemma is_space_lower_char (c : ascii) : is_space (lower_char c) = is_space c.
Proof. ascii_cases c. Qed.

Lemma ic_is_space (c : ascii) : ic is_space c = is_space c.
Proof. ascii_cases c. Qed.

Lemma upper_char_space : upper_char " " = " "%char.
Proof. reflexivity. Qed.

(** ** Normal forms of [normalise_postcode] *)

Module Norm.


Lemma sub_ws_good (s : string) : forall b, good b (sub_ws b s) = true.
Proof.
  induction s as [|c r IH]; intros b; simpl; [reflexivity|].
  destruct (is_space c) eqn:Hc.
  - destruct b; simpl; [apply IH|]. rewrite IH. reflexivity.
  - simpl. rewrite Hc. apply IH.
Qed.

Lemma sub_ws_good_id (s : string) : forall b, good b s = true -> sub_ws b s = s.
Proof.
  induction s as [|c r IH]; intros b H; simpl in *; [reflexivity|].
  destruct (is_space c) eqn:Hc.
  - apply andb_prop in H as [H Hr]. apply andb_prop in H as [Hb Hsp].
    apply Ascii.eqb_eq in Hsp. subst c. destruct b; [discriminate|].
    rewrite (IH true Hr). reflexivity.
  - rewrite (IH false H). reflexivity.
Qed.

Lemma good_true_false (s : string) : good true s = true -> good false s = true.
Proof.
  destruct s as [|c r]; simpl; [auto|].
  destruct (is_space c); [discriminate|auto].
Qed.

Lemma good_lstrip (s : string) : forall b, good b s = true -> good true (lstrip s) = true.
Proof.
  induction s as [|c r IH]; intros b H; simpl in *; [reflexivity|].
  destruct (is_space c) eqn:Hc.
  - apply andb_prop in H as [_ Hr]. apply (IH true Hr).
  - simpl. rewrite Hc. exact H.
Qed.

Lemma good_rstrip (s : string) : forall b, good b s = true -> good b (rstrip s) = true.
Proof.
  induction s as [|c r IH]; intros b H; simpl in *; [reflexivity|].
  destruct (is_space c) eqn:Hc.
  - apply andb_prop in H as [Hb Hr].
    specialize (IH true Hr).
    destruct (rstrip r) as [|c' r'] eqn:E; [reflexivity|].
    simpl. rewrite Hc, Hb. exact IH.
  - specialize (IH false H).
    destruct (rstrip r) as [|c' r'] eqn:E; simpl; rewrite Hc; [reflexivity|exact IH].
Qed.


Lemma lstrip_head (s : string) : head_ok (lstrip s).
Proof.
  induction s as [|c r IH]; simpl; [exact I|].
  destruct (is_space c) eqn:Hc; [exact IH|exact Hc].
Qed.

Lemma lstrip_head_ok (s : string) : head_ok s -> lstrip s = s.
Proof. destruct s as [|c r]; simpl; [auto|]. intros H; rewrite H; reflexivity. Qed.

Lemma rstrip_head_ok (s : string) : head_ok s -> head_ok (rstrip s).
Proof.
  destruct s as [|c r]; simpl; [auto|]. intros H.
  destruct (rstrip r); [rewrite H|]; exact H.
Qed.

Lemma rstrip_idem (s : string) : rstrip (rstrip s) = rstrip s.
Proof.
  induction s as [|c r IH]; simpl; [reflexivity|].
  destruct (rstrip r) as [|c' r'] eqn:E.
  - destruct (is_space c) eqn:Hc; simpl; [reflexivity|]. rewrite Hc. reflexivity.
  - rewrite <- E.
    change (rstrip (String c (rstrip r))) with
      (match rstrip (rstrip r) with
       | EmptyString => if is_space c then EmptyString else String c EmptyString
       | _ => String c (rstrip (rstrip r)) end).
    rewrite E, IH. reflexivity.
Qed.

Lemma strip_idem (s : string) : strip (strip s) = strip s.
Proof.
  unfold strip.
  rewrite (lstrip_head_ok (rstrip (lstrip s))) by apply rstrip_head_ok, lstrip_head.
  apply rstrip_idem.
Qed.

(** Upper-case strings stay upper-case through the later steps. *)
Lemma upper_cons (c : ascii) (r : string) :
  upper (String c r) = String c r <-> upper_char c = c /\ upper r = r.
Proof.
  simpl; split; [intros H; injection H; auto|intros [-> ->]; reflexivity].
Qed.

Lemma upper_idem (s : string) : upper (upper s) = upper s.
Proof. induction s as [|c r IH]; simpl; [|rewrite upper_char_idem, IH]; reflexivity. Qed.

Lemma upper_sub_ws (s : string) : forall b, upper s = s -> upper (sub_ws b s) = sub_ws b s.
Proof.
  induction s as [|c r IH]; intros b H; simpl; [reflexivity|].
  apply upper_cons in H as [Hc Hr].
  destruct (is_space c), b; simpl; rewrite ?Hc, ?IH; auto.
Qed.

Lemma upper_lstrip (s : string) : upper s = s -> upper (lstrip s) = lstrip s.
Proof.
  induction s as [|c r IH]; intros H; simpl; [reflexivity|].
  destruct (is_space c); [apply IH; apply upper_cons in H as [_ Hr]; exact Hr|exact H].
Qed.

Lemma upper_rstrip (s : string) : upper s = s -> upper (rstrip s) = rstrip s.
Proof.
  induction s as [|c r IH]; intros H; [reflexivity|].
  apply upper_cons in H as [Hc Hr].
  change (rstrip (String c r)) with
    (match rstrip r with
     | EmptyString => if is_space c then EmptyString else String c EmptyString
     | _ => String c (rstrip r) end).
  specialize (IH Hr).
  destruct (rstrip r) as [|c' r'] eqn:E.
  - destruct (is_space c); simpl; rewrite ?Hc; reflexivity.
  - simpl in IH |- *. rewrite Hc, IH. reflexivity.
Qed.

Lemma normalise_upper (s : string) : upper (normalise_postcode s) = normalise_postcode s.
Proof.
  unfold normalise_postcode, strip.
  apply upper_rstrip, upper_lstrip, upper_sub_ws, upper_idem.
Qed.

Lemma normalise_good (s : string) : good false (normalise_postcode s) = true.
Proof.
  unfold normalise_postcode, strip.
  apply good_true_false, good_rstrip, (good_lstrip _ false), sub_ws_good.
Qed.

Lemma normalise_idem (s : string) :
  normalise_postcode (normalise_postcode s) = normalise_postcode s.
Proof.
  unfold normalise_postcode at 1.
  rewrite normalise_upper, sub_ws_good_id by apply normalise_good.
  unfold normalise_postcode. apply strip_idem.
Qed.

End Norm.

(** ** The matcher of [UK_PC_RE] against its language *)

Module Match.

Lemma str_app_assoc (a b c : string) : (a ++ b) ++ c = a ++ (b ++ c).
Proof. induction a as [|x a IH]; simpl; [|rewrite IH]; reflexivity. Qed.

Lemma str_app_nil_r (a : string) : a ++ "" = a.
Proof. induction a as [|x a IH]; simpl; [|rewrite IH]; reflexivity. Qed.



Lemma star_self (p : ascii -> bool) (s : string) : In s (star_suffixes p s).
Proof.
  destruct s as [|c r]; simpl; [left; reflexivity|].
  destruct (p c); [apply in_or_app; right; left|left]; reflexivity.
Qed.

Lemma star_suffixes_spec (p : ascii -> bool) (s t : string) :
  In t (star_suffixes p s) <-> exists w, s = w ++ t /\ all_chars p w = true.
Proof.
  revert t; induction s as [|c r IH]; intros t; simpl.
  - split.
    + intros [<-|[]]. exists EmptyString. auto.
    + intros [w [Hw _]]. destruct w; [left; exact Hw|discriminate].
  - destruct (p c) eqn:Hc.
    + rewrite in_app_iff. split.
      * intros [Hin|[<-|[]]].
        -- apply IH in Hin as [w [-> Hw]].
           exists (String c w). simpl. rewrite Hc. auto.
        -- exists EmptyString. auto.
      * intros [w [Hs Hw]]. destruct w as [|c' w]; simpl in Hs.
        -- right. left. exact Hs.
        -- injection Hs as -> ->. simpl in Hw. apply andb_prop in Hw as [_ Hw].
           left. apply IH. eauto.
    + split.
      * intros [<-|[]]. exists EmptyString. auto.
      * intros [w [Hs Hw]]. destruct w as [|c' w]; simpl in Hs.
        -- left. exact Hs.
        -- injection Hs as -> ->. simpl in Hw. rewrite Hc in Hw. discriminate.
Qed.

(** [rsuffixes] is sound and complete: [t] is a remainder exactly when
    [s] splits as a matched prefix followed by [t]. *)
Lemma rsuffixes_spec (r : regex) : forall s t,
  In t (rsuffixes r s) <-> exists w, s = w ++ t /\ lang r w.
Proof.
  induction r as [p|r1 IH1 r2 IH2|r1 IH1 r2 IH2|r1 IH1|p]; intros s t; simpl.
  - destruct s as [|c r]; split.
    + intros [].
    + intros [w [Hs [c [-> _]]]]. discriminate.
    + destruct (ic p c) eqn:Hc; [intros [<-|[]]|intros []].
      exists (String c EmptyString). eauto.
    + intros [w [Hs [c' [-> Hc']]]]. simpl in Hs. injection Hs as -> ->.
      rewrite Hc'. left. reflexivity.
  - rewrite in_flat_map. split.
    + intros [m [Hm Ht]].
      apply IH1 in Hm as [w1 [-> Hw1]]. apply IH2 in Ht as [w2 [-> Hw2]].
      exists (w1 ++ w2). rewrite str_app_assoc. eauto 6.
    + intros [w [-> [w1 [w2 [-> [Hw1 Hw2]]]]]].
      exists (w2 ++ t). rewrite str_app_assoc. split.
      * apply IH1. eauto.
      * apply IH2. eauto.
  - rewrite in_app_iff, IH1, IH2. split.
    + intros [[w [? ?]]|[w [? ?]]]; eauto.
    + intros [w [? [?|?]]]; [left|right]; eauto.
  - rewrite in_app_iff, IH1. split.
    + intros [[w [? ?]]|[<-|[]]]; [eauto|].
      exists EmptyString. auto.
    + intros [w [? [? | ->]]]; [left; eauto|right; left; subst; reflexivity].
  - apply star_suffixes_spec.
Qed.

Lemma uk_pc_match_spec (s : string) :
  uk_pc_match s = true <-> exists w t, s = w ++ t /\ lang UK_PC_RE w /\ at_end t = true.
Proof.
  unfold uk_pc_match. rewrite existsb_exists. split.
  - intros [t [Hin Ht]]. apply rsuffixes_spec in Hin as [w [? ?]]. eauto.
  - intros [w [t [? [? ?]]]]. exists t. split; [apply rsuffixes_spec; eauto|assumption].
Qed.

End Match.

(** ** [UK_PC_RE] against the shape grammar *)

Module Grammar.

#[local] Arguments ic : simpl never.

Lemma lang_class_one (p : ascii -> bool) (c : ascii) :
  ic p c = true -> lang (RClass p) (String c EmptyString).
Proof. intros H. exists c. auto. Qed.

Lemma lang_seq_one (r1 r2 : regex) (c : ascii) (w : string) :
  lang r1 (String c EmptyString) -> lang r2 w -> lang (RSeq r1 r2) (String c w).
Proof. intros H1 H2. exists (String c EmptyString), w. auto. Qed.

Lemma lang_opt_none (r : regex) : lang (ROpt r) EmptyString.
Proof. right. reflexivity. Qed.

Lemma lang_opt_some (r : regex) (w : string) : lang r w -> lang (ROpt r) w.
Proof. left. exact H. Qed.

Lemma lang_seq_skip (r1 r2 : regex) (w : string) :
  lang r2 w -> lang (RSeq (ROpt r1) r2) w.
Proof. intros H. exists EmptyString, w. split; [reflexivity|split; [right; reflexivity|exact H]]. Qed.

Lemma lang_alt_l (r1 r2 : regex) (w : string) : lang r1 w -> lang (RAlt r1 r2) w.
Proof. left. exact H. Qed.

Lemma lang_alt_r (r1 r2 : regex) (w : string) : lang r2 w -> lang (RAlt r1 r2) w.
Proof. right. exact H. Qed.

(** Build a [lang] proof for a string of known characters, trying the
    alternatives of the regex in turn. *)
Ltac solve_lang :=
  match goal with
  | |- lang (RAlt _ _) _ =>
      first [apply lang_alt_l; solve_lang | apply lang_alt_r; solve_lang]
  | |- lang (RSeq (ROpt _) _) _ =>
      first [apply lang_seq_skip; solve_lang | apply lang_seq_one; solve_lang]
  | |- lang (RSeq _ _) (String _ _) => apply lang_seq_one; solve_lang
  | |- lang (lit _) _ => unfold lit; solve_lang
  | |- lang (ROpt _) EmptyString => apply lang_opt_none
  | |- lang (ROpt _) _ => apply lang_opt_some; solve_lang
  | |- lang (RClass _) _ =>
      apply lang_class_one; first [assumption | rewrite ic_is_space; assumption]
  | |- lang ws _ => unfold ws; solve_lang
  end.

(** Break a [lang] hypothesis into characters and class facts. *)
Ltac split_lang :=
  repeat match goal with
         | H : exists _, _ |- _ => destruct H
         | H : _ /\ _ |- _ => destruct H
         | H : _ \/ _ |- _ => destruct H
         end; subst.

(** Close a boolean goal from the class facts in the context. *)
Ltac close_bool :=
  simpl;
  repeat match goal with H : ic is_space _ = true |- _ => rewrite ic_is_space in H end;
  repeat match goal with H : is_space _ = true |- _ => rewrite H; clear H end;
  repeat match goal with H : ic _ _ = true |- _ => rewrite H; clear H end;
  repeat match goal with |- context [ic ?p ?x] => destruct (ic p x) end;
  reflexivity.

(** Break a boolean hypothesis into class facts. *)
Ltac split_bool :=
  repeat match goal with
         | H : _ && _ = true |- _ => apply andb_prop in H as [? ?]
         | H : _ || _ = true |- _ => apply orb_prop in H as [?|?]
         end.

Lemma outward_iff (o : string) : lang re_outward o <-> outward_ok o = true.
Proof.
  split.
  - simpl. intros H. split_lang; close_bool.
  - intros H. destruct o as [|a [|b [|c [|d [|e o]]]]]; simpl in H;
      try discriminate; split_bool; unfold re_outward; solve_lang.
Qed.

Lemma sep_iff (w : string) : lang (ROpt ws) w <-> sep_ok w = true.
Proof.
  split.
  - simpl. intros H. split_lang; [|reflexivity].
    simpl. match goal with H : ic _ _ = true |- _ => rewrite ic_is_space in H; exact H end.
  - intros H. destruct w as [|c [|d w]]; simpl in H; try discriminate.
    + apply lang_opt_none.
    + apply lang_opt_some, lang_class_one.
      rewrite ic_is_space. exact H.
Qed.

Lemma inward_iff (w : string) :
  lang (RSeq (RClass cls_digit) (RSeq (RClass cls_unit) (RClass cls_unit))) w
  <-> inward_ok w = true.
Proof.
  split.
  - simpl. intros H. split_lang; close_bool.
  - intros H. destruct w as [|a [|b [|c [|d w]]]]; simpl in H;
      try discriminate; split_bool; solve_lang.
Qed.

Lemma gir_iff (g : string) : lang re_gir g <-> gir_ok g = true.
Proof.
  split.
  - simpl. intros H. split_lang; simpl; close_bool.
  - intros H. destruct g as [|a [|b [|c [|d [|e [|f [|h [|i g]]]]]]]]; simpl in H;
      try discriminate; unfold gir_tail_ok in H; split_bool; try discriminate;
      unfold re_gir; solve_lang.
Qed.

Lemma postcode_iff (c : string) :
  lang re_postcode c <->
  exists o sep i, c = o ++ sep ++ i /\ outward_ok o = true /\ sep_ok sep = true
                  /\ inward_ok i = true.
Proof.
  split.
  - intros (o & w & -> & Ho & sep & i & -> & Hs & Hi).
    exists o, sep, i. rewrite <- outward_iff, <- sep_iff, <- inward_iff. auto.
  - intros (o & sep & i & -> & Ho & Hs & Hi).
    exists o, (sep ++ i). split; [reflexivity|]. split; [apply outward_iff; exact Ho|].
    exists sep, i. split; [reflexivity|].
    split; [apply sep_iff; exact Hs|apply inward_iff; exact Hi].
Qed.

Lemma core_iff (c : string) : lang re_core c <-> postcode_shape c.
Proof.
  change (lang re_core c) with (lang re_gir c \/ lang re_postcode c).
  unfold postcode_shape. rewrite gir_iff, postcode_iff. reflexivity.
Qed.

Lemma all_ic_space (w : string) : all_chars (ic is_space) w = all_chars is_space w.
Proof. induction w as [|c w IH]; simpl; [|rewrite ic_is_space, IH]; reflexivity. Qed.

Lemma all_chars_app (p : ascii -> bool) (a b : string) :
  all_chars p (a ++ b) = all_chars p a && all_chars p b.
Proof. induction a as [|c a IH]; simpl; [|rewrite IH, andb_assoc]; reflexivity. Qed.

(** [UK_PC_RE.match(s)] succeeds exactly on whitespace, a postcode of the
    shape grammar, whitespace. *)
Lemma uk_pc_match_shape (s : string) :
  uk_pc_match s = true <->
  exists w1 core w2, s = w1 ++ core ++ w2 /\ all_chars is_space w1 = true
                     /\ all_chars is_space w2 = true /\ postcode_shape core.
Proof.
  rewrite Match.uk_pc_match_spec. split.
  - intros (w & t & -> & (a & b & -> & Ha & c & d & -> & Hc & Hd) & Ht).
    cbn [lang] in Ha, Hd. rewrite all_ic_space in Ha, Hd. apply core_iff in Hc.
    exists a, c, (d ++ t). repeat rewrite Match.str_app_assoc.
    split; [reflexivity|]. split; [exact Ha|]. split; [|exact Hc].
    rewrite all_chars_app, Hd. simpl.
    destruct t as [|ch [|ch' t]]; simpl in Ht |- *; try discriminate; [reflexivity|].
    apply Ascii.eqb_eq in Ht. subst ch. reflexivity.
  - intros (w1 & core & w2 & -> & H1 & H2 & Hc).
    exists (w1 ++ core ++ w2), EmptyString. split; [symmetry; apply Match.str_app_nil_r|].
    split; [|reflexivity].
    exists w1, (core ++ w2). split; [reflexivity|]. split; [cbn [lang]; rewrite all_ic_space; exact H1|].
    exists core, w2. split; [reflexivity|]. split; [apply core_iff; exact Hc|].
    cbn [lang]. rewrite all_ic_space. exact H2.
Qed.

End Grammar.

(** ** The [/search] filter loop *)

Module Filter.

Lemma scan_offices_find (org : organisation) (pc : string) (offs : list office) :
  scan_offices org pc offs
  = option_map (project org) (find (fun o => office_matches_postcode o pc) offs).
Proof.
  induction offs as [|o offs IH]; simpl; [reflexivity|].
  destruct (office_matches_postcode o pc); [reflexivity|exact IH].
Qed.

Lemma project_spec_result (org : organisation) (o : office) :
  project org o = spec_result org o.
Proof.
  unfold project, spec_result, py_or.
  destruct (Email org) as [e|]; [destruct (String.eqb e "")|]; reflexivity.
Qed.

(** The loop appends, to the [results] it starts from, the spec's list. *)
Lemma filter_orgs_app_spec (pc : string) (orgs : list organisation) :
  forall acc, filter_orgs pc orgs acc = app acc (filter_and_project_spec pc orgs).
Proof.
  induction orgs as [|org orgs IH]; intros acc; simpl.
  - symmetry. apply app_nil_r.
  - destruct (looks_active org); simpl.
    + rewrite scan_offices_find.
      destruct (find _ _) as [o|]; simpl; rewrite IH.
      * rewrite project_spec_result, <- app_assoc. reflexivity.
      * reflexivity.
    + apply IH.
Qed.

Lemma spec_length (pc : string) (orgs : list organisation) :
  length (filter_and_project_spec pc orgs) <= length orgs.
Proof.
  induction orgs as [|org orgs IH]; simpl; [lia|].
  rewrite length_app.
  destruct (looks_active org); [destruct (find _ _)|]; simpl; lia.
Qed.

Lemma office_matches_empty (o : office) (pc : string) :
  office_postcode o = "" -> office_matches_postcode o pc = false.
Proof. intros H. unfold office_matches_postcode. rewrite H. reflexivity. Qed.

Lemma find_malformed (pc : string) (offs : list office) :
  (forall o, In o offs -> office_postcode o = "") ->
  find (fun o => office_matches_postcode o pc) offs = None.
Proof.
  induction offs as [|o offs IH]; intros H; simpl; [reflexivity|].
  rewrite office_matches_empty by (apply H; left; reflexivity).
  apply IH. intros o' Ho'. apply H. right. exact Ho'.
Qed.

End Filter.

(** ** The host-fallback loop *)

Module Fallback.

Lemma try_host_delivers {J} (net : string -> get_result J) (path base : string) (j : J) :
  try_host J net path base = inl j <-> delivers net path base j.
Proof.
  unfold try_host, delivers. split.
  - destruct (net (request_url base path)) as [resp|m|m]; try discriminate.
    destruct (raises_for_status (status resp)) eqn:Hr; [discriminate|].
    destruct (json resp) as [m|j'] eqn:Hj; [discriminate|].
    intros H. injection H as ->. eauto.
  - intros (resp & -> & Hr & Hj). rewrite Hr, Hj. reflexivity.
Qed.

Lemma try_host_fails {J} (net : string -> get_result J) (path base m : string) :
  try_host J net path base = inr m -> forall j, ~ delivers net path base j.
Proof.
  intros H j Hd. apply try_host_delivers in Hd. congruence.
Qed.

(** What [call_loop] does, from any [last_error]. *)
Lemma call_loop_cases {J} (net : string -> get_result J) (path : string) (hosts : list string) :
  forall last,
  let r := call_loop J net path hosts last in
  (exists pre base post j, hosts = app pre (base :: post) /\ fst r = app pre [base]
     /\ snd r = Ret j /\ delivers net path base j
     /\ Forall (fun b => forall j', ~ delivers net path b j') pre)
  \/ (fst r = hosts /\ Forall (fun b => forall j', ~ delivers net path b j') hosts
      /\ exists final,
           snd r = Raise (HTTPException 502
                            ("SRA API network error: " ++ show_last_error final))
           /\ ((hosts = [] /\ final = last)
               \/ exists pre b m, hosts = app pre [b] /\ try_host J net path b = inr m
                                  /\ final = Some m)).
Proof.
  induction hosts as [|base rest IH]; intros last; simpl.
  - right. split; [reflexivity|]. split; [constructor|].
    exists last. split; [reflexivity|]. left. auto.
  - destruct (try_host J net path base) as [j|m] eqn:Ht.
    + left. exists [], base, rest, j. simpl.
      split; [reflexivity|]. split; [reflexivity|]. split; [reflexivity|].
      split; [apply try_host_delivers; exact Ht|constructor].
    + specialize (IH (Some m)). simpl in IH.
      destruct (call_loop J net path rest (Some m)) as [tried res] eqn:E; simpl in *.
      destruct IH as [(pre & b & post & j & -> & -> & -> & Hd & Hpre)
                     |(-> & Hall & final & -> & Hfinal)].
      * left. exists (base :: pre), b, post, j. simpl.
        repeat split; auto. constructor; [apply (try_host_fails _ _ _ _ Ht)|exact Hpre].
      * right. split; [reflexivity|].
        split; [constructor; [apply (try_host_fails _ _ _ _ Ht)|exact Hall]|].
        exists final. split; [reflexivity|]. right.
        destruct Hfinal as [[-> ->]|(pre & b & m' & -> & Hb & ->)].
        -- exists [], base, m. auto.
        -- exists (base :: pre), b, m'. auto.
Qed.

End Fallback.

(** ** [outward_code] *)

Module Outward.

Lemma before_space_split (s : string) :
  has_space s = true ->
  exists rest, s = before_space s ++ " " ++ rest /\ has_space (before_space s) = false.
Proof.
  induction s as [|c r IH]; simpl; [discriminate|].
  destruct (Ascii.eqb c " ") eqn:Hc; simpl.
  - intros _. apply Ascii.eqb_eq in Hc. subst c. exists r. auto.
  - intros H. destruct (IH H) as [rest [Hr Hn]].
    exists rest. split; [f_equal; exact Hr|]. simpl. rewrite Hc, Hn. reflexivity.
Qed.

Lemma substring_full (s : string) : substring 0 (String.length s) s = s.
Proof. induction s as [|c r IH]; simpl; [reflexivity|rewrite IH; reflexivity]. Qed.

Lemma substring_split (s : string) : forall k,
  k <= String.length s ->
  substring 0 k s ++ substring k (String.length s - k) s = s.
Proof.
  induction s as [|c r IH]; intros k Hk; simpl in *.
  - destruct k; reflexivity.
  - destruct k as [|k]; simpl.
    + rewrite substring_full. reflexivity.
    + rewrite IH by lia. reflexivity.
Qed.

Lemma substring_length (s : string) : forall k m,
  k + m <= String.length s -> String.length (substring k m s) = m.
Proof.
  induction s as [|c r IH]; intros k m H; simpl in *.
  - assert (k = 0) by lia. assert (m = 0) by lia. subst. reflexivity.
  - destruct k as [|k], m as [|m]; simpl; try reflexivity.
    + rewrite (IH 0 m) by lia. reflexivity.
    + apply IH. lia.
    + apply IH. lia.
Qed.

End Outward.

(** ** [looks_active] *)

Module Active.

Lemma prefix_spec (w : string) : forall s,
  prefix w s = true <-> exists t, s = w ++ t.
Proof.
  induction w as [|a w IH]; intros s; simpl.
  - split; [intros _; exists s; reflexivity|intros _; destruct s; reflexivity].
  - destruct s as [|b s].
    + split; [discriminate|intros [t Ht]; discriminate].
    + simpl. destruct (ascii_dec a b) as [->|Hab].
      * rewrite IH. split; intros [t Ht]; exists t; [rewrite Ht|injection Ht]; auto.
      * split; [discriminate|intros [t Ht]; injection Ht; intros; congruence].
Qed.

Lemma contains_cons (w : string) (c : ascii) (r : string) :
  contains w (String c r) = prefix w (String c r) || contains w r.
Proof. reflexivity. Qed.

Lemma contains_spec (w s : string) :
  contains w s = true <-> exists pre post, s = pre ++ w ++ post.
Proof.
  induction s as [|c r IH].
  - destruct w as [|a w]; simpl.
    + split; [intros _; exists EmptyString, EmptyString; reflexivity|reflexivity].
    + split; [discriminate|]. intros (pre & post & H). destruct pre; discriminate.
  - rewrite contains_cons. destruct (prefix w (String c r)) eqn:Hp; simpl.
    + split; [intros _|reflexivity]. apply prefix_spec in Hp as [t Ht].
      exists EmptyString, t. exact Ht.
    + rewrite IH. split.
      * intros (pre & post & ->). exists (String c pre), post. reflexivity.
      * intros (pre & post & H). destruct pre as [|c' pre]; simpl in H.
        -- assert (prefix w (String c r) = true) by (apply prefix_spec; eauto).
           congruence.
        -- injection H as -> ->. eauto.
Qed.

Lemma lower_lstrip (s : string) : lower (lstrip s) = lstrip (lower s).
Proof.
  induction s as [|c r IH]; simpl; [reflexivity|].
  rewrite is_space_lower_char. destruct (is_space c); [exact IH|reflexivity].
Qed.

Lemma lower_rstrip (s : string) : lower (rstrip s) = rstrip (lower s).
Proof.
  induction s as [|c r IH]; [reflexivity|].
  change (rstrip (String c r)) with
    (match rstrip r with
     | EmptyString => if is_space c then EmptyString else String c EmptyString
     | _ => String c (rstrip r) end).
  change (rstrip (lower (String c r))) with
    (match rstrip (lower r) with
     | EmptyString => if is_space (lower_char c) then EmptyString
                      else String (lower_char c) EmptyString
     | _ => String (lower_char c) (rstrip (lower r)) end).
  rewrite <- IH, is_space_lower_char.
  destruct (rstrip r) as [|c' r'].
  - destruct (is_space c); reflexivity.
  - reflexivity.
Qed.

Lemma lower_strip (s : string) : lower (strip s) = strip (lower s).
Proof. unfold strip. rewrite lower_rstrip, lower_lstrip. reflexivity. Qed.

End Active.

(* ================================================================== *)
(** * The claims *)

(** ** Search results *)

(** C1: the [/search] filter loop (outer loop over organisations, inner
    loop over offices with [break]) emits, in organisation order, one result
    for each active organisation: the one built from its first matching
    office, with [Email] falling back to [GeneralEmail]; inactive
    organisations and organisations without a matching office give nothing,
    so there are at most as many results as organisations. *)
Theorem filter_orgs_one_result_per_org (pc : string) (orgs : list organisation) :
  filter_orgs pc orgs [] = filter_and_project_spec pc orgs
  /\ length (filter_orgs pc orgs []) <= length orgs.
Proof.
  rewrite Filter.filter_orgs_app_spec. simpl.
  split; [reflexivity|apply Filter.spec_length].
Qed.

(** ** The upstream fetch *)

(** C2 (counterexample): with the first host answering [300] and a JSON
    body, and the second [200] with JSON, [call_sra_json] returns the first
    host's body after one request; the first host with a 2xx answer is the
    second one. *)
Lemma call_sra_json_accepts_3xx :
  let h1 := "https://sra-prod-api.microsites.uk/datashare/api/v1" in
  let h2 := "https://sra-prod-api.azure-api.net/datashare/api/v1" in
  let net := fun url =>
    if String.eqb url (request_url h1 "Organisations")
    then Got (mkResponse 300%Z "" (inr 1)) else Got (mkResponse 200%Z "" (inr 2)) in
  call_sra_json nat net "Organisations" = ([h1], Ret 1)
  /\ (forall j, ~ delivers_2xx net "Organisations" h1 j)
  /\ delivers_2xx net "Organisations" h2 2.
Proof.
  intros h1 h2 net. split; [vm_compute; reflexivity|split].
  - intros j (resp & Hget & Hst & _).
    vm_compute in Hget. injection Hget as <-. simpl in Hst. lia.
  - eexists. split; [vm_compute; reflexivity|]. simpl. split; [lia|reflexivity].
Qed.

(** C2 (amended): [call_sra_json] requests the hosts in order, each at most
    once.  Either it stops at the first host that [delivers] (a response
    [raise_for_status] accepts, i.e. no status in 400..599, with a JSON
    body), after all earlier hosts failed, and returns that body; or every
    host failed, each was requested once, and it raises [HTTPException] 502
    whose detail carries the message recorded for the last host ([None] when
    the list is empty).  No other result is possible. *)
Theorem call_sra_json_host_fallback {J} (net : string -> get_result J)
  (hosts : list string) (path : string) :
  let r := call_sra_json_hosts J net hosts path in
  (exists pre base post j, hosts = app pre (base :: post) /\ fst r = app pre [base]
     /\ snd r = Ret j /\ delivers net path base j
     /\ Forall (fun b => forall j', ~ delivers net path b j') pre)
  \/ (fst r = hosts /\ Forall (fun b => forall j', ~ delivers net path b j') hosts
      /\ ((hosts = [] /\ snd r = Raise (HTTPException 502 "SRA API network error: None"))
          \/ exists pre b m, hosts = app pre [b] /\ try_host J net path b = inr m
                             /\ snd r = Raise (HTTPException 502
                                                 ("SRA API network error: " ++ m)))).
Proof.
  unfold call_sra_json_hosts.
  destruct (Fallback.call_loop_cases net path hosts None)
    as [Hok|(Htried & Hall & final & Hraise & Hfinal)]; [left; exact Hok|].
  right. split; [exact Htried|]. split; [exact Hall|].
  rewrite Hraise.
  destruct Hfinal as [[-> ->]|(pre & b & m & -> & Hb & ->)].
  - left. auto.
  - right. exists pre, b, m. auto.
Qed.

(** ** Postcode validation *)

(** C3 (counterexample): the unspaced [SW1A1AA] is left without a space
    by [normalise_postcode], and [UK_PC_RE] accepts it. *)
Lemma uk_pc_re_accepts_unspaced :
  normalise_postcode "SW1A1AA" = "SW1A1AA"
  /\ uk_pc_match (normalise_postcode "SW1A1AA") = true.
Proof. split; vm_compute; reflexivity. Qed.

(** C3 (amended): [UK_PC_RE.match] accepts exactly the strings made of
    whitespace, a postcode of the grammar, and whitespace, where the
    postcode is [GIR 0AA] or an outward code followed by an optional single
    whitespace character and the inward code (sector digit and two unit
    letters), letters in either case; so both [SW1A 1AA] and [SW1A1AA] pass.
    The check is a boolean: a non-matching string gives [false]. *)
Theorem uk_pc_re_language (s : string) :
  (uk_pc_match s = true <->
   exists w1 core w2, s = w1 ++ core ++ w2 /\ all_chars is_space w1 = true
                      /\ all_chars is_space w2 = true /\ postcode_shape core)
  /\ uk_pc_match "SW1A 1AA" = true /\ uk_pc_match "SW1A1AA" = true.
Proof.
  split; [apply Grammar.uk_pc_match_shape|].
  split; vm_compute; reflexivity.
Qed.

(** C4: [outward_code] normalises; with a space it returns what precedes
    the first space; without one it drops the last three characters of a
    longer string and keeps a string of at most three characters. *)
Theorem outward_code_cases (s : string) :
  let n := normalise_postcode s in
  (has_space n = true ->
     exists rest, n = outward_code s ++ " " ++ rest /\ has_space (outward_code s) = false)
  /\ (has_space n = false -> (3 < String.length n)%nat ->
      exists last3, n = outward_code s ++ last3 /\ String.length last3 = 3)
  /\ (has_space n = false -> (String.length n <= 3)%nat -> outward_code s = n)
  /\ outward_code "SW1A 1AA" = "SW1A" /\ outward_code "sw1a1aa" = "SW1A".
Proof.
  intros n.
  assert (E : outward_code s =
              if has_space n then before_space n
              else if Nat.ltb 3 (String.length n)
                   then substring 0 (String.length n - 3) n else n) by reflexivity.
  split; [|split; [|split; [|split; vm_compute; reflexivity]]].
  - intros H. rewrite E, H. apply Outward.before_space_split. exact H.
  - intros H Hl. rewrite E, H.
    replace (Nat.ltb 3 (String.length n)) with true by (symmetry; apply Nat.ltb_lt; exact Hl).
    exists (substring (String.length n - 3) 3 n). split.
    + rewrite <- (Outward.substring_split n (String.length n - 3)) at 1 by lia.
      replace (String.length n - (String.length n - 3)) with 3 by lia. reflexivity.
    + apply Outward.substring_length. lia.
  - intros H Hl. rewrite E, H.
    replace (Nat.ltb 3 (String.length n)) with false by (symmetry; apply Nat.ltb_ge; exact Hl).
    reflexivity.
Qed.

(** C5: [looks_active] holds exactly when the trimmed, lower-cased status
    (missing reads as empty) contains one of the four keywords; so it holds
    for [Authorised], [  registered  ], [Recognised Body] and not for
    [Revoked], the empty status or a missing one. *)
Theorem looks_active_keywords (org : organisation) :
  (looks_active org = true <->
   Exists (fun w => exists pre post,
             strip (lower (or_empty (AuthorisationStatus org))) = pre ++ w ++ post)
          ["authorised"; "registered"; "authorised body"; "recognised body"])
  /\ map (fun st => looks_active (mkOrganisation None None None None None st None))
       [Some "Authorised"; Some "  registered  "; Some "Recognised Body";
        Some "Revoked"; Some ""; None]
     = [true; true; true; false; false; false].
Proof.
  split; [|vm_compute; reflexivity].
  unfold looks_active. rewrite Active.lower_strip, existsb_exists, Exists_exists.
  split; intros [w [Hin Hw]]; exists w; split; auto; apply Active.contains_spec; exact Hw.
Qed.

(** C6: [normalise_postcode] is idempotent. *)
Theorem normalise_postcode_idempotent (x : string) :
  normalise_postcode (normalise_postcode x) = normalise_postcode x.
Proof. apply Norm.normalise_idem. Qed.

(** C7: [office_matches_postcode] is [false] for an office with no address
    or with a missing or empty postcode, and otherwise compares the outward
    codes; an organisation whose offices list is missing, or whose offices
    are all malformed, drops out of the results and leaves the rest of them
    unchanged. *)
Theorem office_malformed_excluded (pc : string) (orgs1 orgs2 : list organisation)
  (org : organisation)
  (Hbad : forall o, In o (or_nil (Offices org)) -> office_malformed o) :
  (forall o, office_malformed o -> office_matches_postcode o pc = false)
  /\ (forall o a p, Address o = Some a -> PostCode a = Some p -> p <> "" ->
        office_matches_postcode o pc = String.eqb (outward_code p) (outward_code pc))
  /\ filter_orgs pc (app orgs1 (org :: orgs2)) [] = filter_orgs pc (app orgs1 orgs2) [].
Proof.
  assert (Hpc : forall o, office_malformed o -> office_postcode o = "").
  { intros o [Ha|(a & Ha & [Hp|Hp])]; unfold office_postcode, office_address;
      rewrite Ha; [reflexivity| |]; rewrite Hp; reflexivity. }
  split; [|split].
  - intros o Ho. apply Filter.office_matches_empty, Hpc, Ho.
  - intros o a p Ha Hp Hne. unfold office_matches_postcode, office_postcode, office_address.
    rewrite Ha, Hp. simpl. apply String.eqb_neq in Hne. rewrite Hne. reflexivity.
  - rewrite !Filter.filter_orgs_app_spec. simpl.
    unfold filter_and_project_spec. rewrite !flat_map_app. simpl.
    rewrite Filter.find_malformed by (intros o Ho; apply Hpc, Hbad, Ho).
    destruct (looks_active org); reflexivity.
Qed.

(** The shape C7 is about: an active organisation whose two offices have no
    address and an empty address, between two other organisations. *)
Lemma office_malformed_excluded_witness :
  let bad := mkOrganisation (Some "1") (Some "Firm") None None None (Some "Authorised")
               (Some [mkOffice None; mkOffice (Some (mkAddress None None None))]) in
  let good := mkOrganisation (Some "2") (Some "Other") None None None (Some "Authorised")
               (Some [mkOffice (Some (mkAddress (Some "SW1A 2AA") None None))]) in
  (forall o, In o (or_nil (Offices bad)) -> office_malformed o)
  /\ filter_orgs "SW1A 1AA" (app [good] (bad :: [good])) []
     = filter_orgs "SW1A 1AA" (app [good] [good]) [].
Proof.
  intros bad good.
  assert (H : forall o, In o (or_nil (Offices bad)) -> office_malformed o).
  { simpl. intros o [<-|[<-|[]]]; [left; reflexivity|].
    right. eexists. split; [reflexivity|left; reflexivity]. }
  split; [exact H|].
  exact (proj2 (proj2 (office_malformed_excluded "SW1A 1AA" [good] [good] bad H))).
Defined.

(** C8: the sample postcodes of the specification, already normalised. *)
Theorem uk_pc_samples :
  map uk_pc_match ["SW1A 1AA"; "GIR 0AA"; "M1 1AE"; "B33 8TH"; "CR2 6XH"; "DN55 1PT"]
  = [true; true; true; true; true; true]
  /\ map uk_pc_match ["12345"; ""; "ABCDEF"] = [false; false; false].
Proof. split; vm_compute; reflexivity. Qed.

(** ** The [/search] endpoint *)

(** C9: a postcode that fails [UK_PC_RE] after normalisation gives the
    422 [HTTPException] and no upstream request is made. *)
Theorem search_invalid_postcode_no_fetch (net : string -> get_result payload)
  (postcode : string)
  (Hinvalid : uk_pc_match (normalise_postcode postcode) = false) :
  search_firms net postcode
  = ([], Raise (HTTPException 422 "Please provide a valid UK postcode.")).
Proof. unfold search_firms. rewrite Hinvalid. reflexivity. Qed.

Lemma search_invalid_postcode_no_fetch_witness :
  uk_pc_match (normalise_postcode "12345") = false
  /\ search_firms (fun _ => NetworkFailure "connection refused") "12345"
     = ([], Raise (HTTPException 422 "Please provide a valid UK postcode.")).
Proof.
  assert (H : uk_pc_match (normalise_postcode "12345") = false) by (vm_compute; reflexivity).
  split; [exact H|].
  exact (search_invalid_postcode_no_fetch (fun _ => NetworkFailure "connection refused")
           "12345" H).
Defined.

(** C10: searching with a postcode and with its normalised form gives the
    same requests and the same response. *)
Theorem search_normalised_postcode (net : string -> get_result payload) (p : string) :
  search_firms net (normalise_postcode p) = search_firms net p.
Proof. unfold search_firms. rewrite Norm.normalise_idem. reflexivity. Qed.

(* ================================================================== *)
(** * Further properties of the code *)

(** ** [UK_PC_RE] under a change of case *)

Module CaseMap.

Section Map.

(** A string map that changes each character by [g] (as [upper] and
    [lower] do), where [g] keeps every case-insensitive class test and the
    newline. *)
Variable g : ascii -> ascii.
Variable cm : string -> string.
Hypothesis cm_nil : cm EmptyString = EmptyString.
Hypothesis cm_cons : forall c r, cm (String c r) = String (g c) (cm r).
Hypothesis ic_g : forall p c, ic p (g c) = ic p c.
Hypothesis g_nl : forall c, Ascii.eqb (g c) "010" = Ascii.eqb c "010".





End Map.






End CaseMap.

(** ** Strings built from the postcode grammar *)

Module Shape.

#[local] Arguments ic : simpl never.

(** A character fact [ic cls c = true -> is_space c = false], by
    enumeration. *)
Ltac class_not_space :=
  intros c; destruct c as [[] [] [] [] [] [] [] []]; vm_compute;
  intros H; first [reflexivity|discriminate H].

Lemma digit_ns : forall c, ic cls_digit c = true -> is_space c = false.
Proof. class_not_space. Qed.
Lemma area1_ns : forall c, ic cls_area1 c = true -> is_space c = false.
Proof. class_not_space. Qed.
Lemma area2_ns : forall c, ic cls_area2 c = true -> is_space c = false.
Proof. class_not_space. Qed.
Lemma district3_ns : forall c, ic cls_district3 c = true -> is_space c = false.
Proof. class_not_space. Qed.
Lemma district4_ns : forall c, ic cls_district4 c = true -> is_space c = false.
Proof. class_not_space. Qed.
Lemma unit_ns : forall c, ic cls_unit c = true -> is_space c = false.
Proof. class_not_space. Qed.

Lemma upper_char_of_space (c : ascii) : is_space c = true -> upper_char c = c.
Proof. destruct c as [[] [] [] [] [] [] [] []]; vm_compute; intros H; first [reflexivity|discriminate H]. Qed.

Ltac ns_facts :=
  repeat match goal with
         | H : _ && _ = true |- _ => apply andb_prop in H as [? ?]
         | H : _ || _ = true |- _ => apply orb_prop in H as [?|?]
         end;
  repeat match goal with
         | H : ic cls_digit ?c = true |- _ => apply digit_ns in H
         | H : ic cls_area1 ?c = true |- _ => apply area1_ns in H
         | H : ic cls_area2 ?c = true |- _ => apply area2_ns in H
         | H : ic cls_district3 ?c = true |- _ => apply district3_ns in H
         | H : ic cls_district4 ?c = true |- _ => apply district4_ns in H
         | H : ic cls_unit ?c = true |- _ => apply unit_ns in H
         end;
  unfold no_space_chars; simpl;
  repeat match goal with H : is_space _ = false |- _ => rewrite H; clear H end;
  reflexivity.

Lemma outward_ok_ns (o : string) :
  outward_ok o = true -> no_space_chars o = true /\ 2 <= String.length o.
Proof.
  intros H. destruct o as [|a [|b [|c [|d [|e o]]]]]; simpl in H; try discriminate;
    (split; [ns_facts|simpl; lia]).
Qed.

Lemma inward_ok_ns (i : string) :
  inward_ok i = true ->
  no_space_chars i = true /\ exists d r, i = String d r /\ is_space d = false
                                          /\ String.length i = 3.
Proof.
  intros H. destruct i as [|a [|b [|c [|d i]]]]; simpl in H; try discriminate.
  split; [ns_facts|]. exists a, (String b (String c EmptyString)).
  split; [reflexivity|]. split; [|reflexivity].
  apply andb_prop in H as [H _]. apply andb_prop in H as [H _]. apply digit_ns, H.
Qed.

Lemma upper_app (a b : string) : upper (a ++ b) = upper a ++ upper b.
Proof. induction a as [|c a IH]; simpl; [|rewrite IH]; reflexivity. Qed.

Lemma upper_length (a : string) : String.length (upper a) = String.length a.
Proof. induction a as [|c a IH]; simpl; [|rewrite IH]; reflexivity. Qed.

Lemma ns_upper (a : string) : no_space_chars (upper a) = no_space_chars a.
Proof.
  unfold no_space_chars. induction a as [|c a IH]; simpl; [reflexivity|].
  rewrite is_space_upper_char, IH. reflexivity.
Qed.

Lemma sub_ws_ns (a r : string) :
  no_space_chars a = true -> sub_ws false (a ++ r) = a ++ sub_ws false r.
Proof.
  unfold no_space_chars. induction a as [|c a IH]; simpl; [reflexivity|].
  intros H. apply andb_prop in H as [Hc Ha]. apply negb_true_iff in Hc.
  rewrite Hc, IH by exact Ha. reflexivity.
Qed.

Lemma rstrip_ns (a : string) : no_space_chars a = true -> rstrip a = a.
Proof.
  unfold no_space_chars. induction a as [|c a IH]; [reflexivity|].
  intros H. simpl in H. apply andb_prop in H as [Hc Ha]. apply negb_true_iff in Hc.
  change (rstrip (String c a)) with
    (match rstrip a with
     | EmptyString => if is_space c then EmptyString else String c EmptyString
     | _ => String c (rstrip a) end).
  rewrite (IH Ha). destruct a; [rewrite Hc|]; reflexivity.
Qed.

Lemma rstrip_app (a b : string) : rstrip b <> EmptyString -> rstrip (a ++ b) = a ++ rstrip b.
Proof.
  intros Hb. induction a as [|c a IH]; [reflexivity|]. cbn [append].
  change (rstrip (String c (a ++ b))) with
    (match rstrip (a ++ b) with
     | EmptyString => if is_space c then EmptyString else String c EmptyString
     | _ => String c (rstrip (a ++ b)) end).
  rewrite IH. destruct a as [|c' a]; simpl.
  - destruct (rstrip b); [contradiction|reflexivity].
  - reflexivity.
Qed.

Lemma has_space_app (a b : string) : has_space (a ++ b) = has_space a || has_space b.
Proof. induction a as [|c a IH]; simpl; [|rewrite IH, orb_assoc]; reflexivity. Qed.

Lemma has_space_ns (a : string) : no_space_chars a = true -> has_space a = false.
Proof.
  unfold no_space_chars. induction a as [|c a IH]; simpl; [reflexivity|].
  intros H. apply andb_prop in H as [Hc Ha]. rewrite (IH Ha).
  destruct (Ascii.eqb c " ") eqn:E; [|reflexivity].
  apply Ascii.eqb_eq in E. subst c. discriminate.
Qed.

Lemma before_space_app (a r : string) :
  has_space a = false -> before_space (a ++ String " " r) = a.
Proof.
  induction a as [|c a IH]; simpl; [reflexivity|].
  destruct (Ascii.eqb c " "); simpl; [discriminate|]. intros H. rewrite (IH H). reflexivity.
Qed.

Lemma substring_app (a b : string) : substring 0 (String.length a) (a ++ b) = a.
Proof. induction a as [|c a IH]; simpl; [destruct b|rewrite IH]; reflexivity. Qed.

Lemma sub_ws_ns_id (a : string) : no_space_chars a = true -> sub_ws false a = a.
Proof.
  intros H. rewrite <- (Match.str_app_nil_r a) at 1. rewrite sub_ws_ns by exact H.
  apply Match.str_app_nil_r.
Qed.

Lemma lstrip_ns (a b : string) :
  no_space_chars a = true -> a <> EmptyString -> lstrip (a ++ b) = a ++ b.
Proof.
  unfold no_space_chars. destruct a as [|c a]; [contradiction|].
  intros H _. simpl in H. apply andb_prop in H as [Hc _]. apply negb_true_iff in Hc.
  simpl. rewrite Hc. reflexivity.
Qed.

Lemma ns_app (a b : string) :
  no_space_chars (a ++ b) = no_space_chars a && no_space_chars b.
Proof. apply Grammar.all_chars_app. Qed.

Lemma nonempty_of_length (a : string) : 1 <= String.length a -> a <> EmptyString.
Proof. destruct a; simpl; [lia|discriminate]. Qed.

(** [normalise_postcode] on an outward code directly followed by an inward
    code: both upper-cased. *)
Lemma normalise_nosep (o i : string) :
  outward_ok o = true -> inward_ok i = true ->
  normalise_postcode (o ++ i) = upper o ++ upper i.
Proof.
  intros Ho Hi. apply outward_ok_ns in Ho as [No Lo]. apply inward_ok_ns in Hi as [Ni _].
  assert (N : no_space_chars (upper o ++ upper i) = true)
    by (rewrite ns_app, !ns_upper, No, Ni; reflexivity).
  unfold normalise_postcode, strip. rewrite upper_app, sub_ws_ns_id by exact N.
  assert (NE : upper o ++ upper i <> EmptyString)
    by (destruct o; simpl in Lo; [lia|]; simpl; discriminate).
  rewrite <- (Match.str_app_nil_r (upper o ++ upper i)) at 1.
  rewrite lstrip_ns, Match.str_app_nil_r by assumption.
  apply rstrip_ns, N.
Qed.

(** [normalise_postcode] on an outward code, one whitespace character and
    an inward code: both upper-cased, joined by one space. *)
Lemma normalise_sep (o i : string) (c : ascii) :
  outward_ok o = true -> is_space c = true -> inward_ok i = true ->
  normalise_postcode (o ++ String c i) = upper o ++ String " " (upper i).
Proof.
  intros Ho Hc Hi. apply outward_ok_ns in Ho as [No Lo].
  apply inward_ok_ns in Hi as [Ni [d [r [-> [Hd _]]]]].
  rewrite <- ns_upper in No, Ni.
  unfold normalise_postcode, strip. rewrite upper_app, sub_ws_ns by exact No.
  cbn [upper sub_ws]. rewrite upper_char_of_space, Hc by exact Hc.
  rewrite is_space_upper_char, Hd.
  assert (Nr : no_space_chars (upper r) = true)
    by (unfold no_space_chars in *; simpl in Ni; apply andb_prop in Ni as [_ Ni]; exact Ni).
  rewrite (sub_ws_ns_id (upper r)) by exact Nr.
  change (String (upper_char d) (upper r)) with (upper (String d r)).
  rewrite lstrip_ns by (exact No || (apply nonempty_of_length; rewrite upper_length; lia)).
  assert (R : rstrip (String " " (upper (String d r))) = String " " (upper (String d r))).
  { change (rstrip (String " " (upper (String d r)))) with
      (match rstrip (upper (String d r)) with
       | EmptyString => if is_space " " then EmptyString else String " " EmptyString
       | _ => String " " (rstrip (upper (String d r))) end).
    rewrite (rstrip_ns _ Ni). reflexivity. }
  rewrite rstrip_app, R; [reflexivity|]. rewrite R. discriminate.
Qed.

End Shape.

(** ** Helpers for blank input, case, URLs, search and probe *)

Module More.

Lemma all_space_upper (s : string) :
  all_chars is_space s = true -> all_chars is_space (upper s) = true.
Proof. induction s as [|c s IH]; simpl; [auto|]. rewrite is_space_upper_char. intros H.
  apply andb_prop in H as [Hc Hs]. rewrite Hc, IH by exact Hs. reflexivity. Qed.

Lemma all_space_sub_ws (s : string) : forall b,
  all_chars is_space s = true -> all_chars is_space (sub_ws b s) = true.
Proof.
  induction s as [|c s IH]; intros b H; simpl in *; [reflexivity|].
  apply andb_prop in H as [Hc Hs]. rewrite Hc.
  destruct b; simpl; [apply IH, Hs|]. apply IH, Hs.
Qed.

Lemma lstrip_all_space (s : string) : all_chars is_space s = true -> lstrip s = EmptyString.
Proof.
  induction s as [|c s IH]; simpl; [reflexivity|]. intros H.
  apply andb_prop in H as [Hc Hs]. rewrite Hc. apply IH, Hs.
Qed.





Lemma rstrip_slash_snoc (b : string) : rstrip_slash (b ++ "/") = rstrip_slash b.
Proof. induction b as [|c b IH]; [reflexivity|]. simpl. rewrite IH. reflexivity. Qed.


Lemma str_length_app (a b : string) :
  String.length (a ++ b) = String.length a + String.length b.
Proof. induction a as [|c a IH]; simpl; [|rewrite IH]; reflexivity. Qed.

Lemma outward_code_normalise (p : string) :
  outward_code (normalise_postcode p) = outward_code p.
Proof. unfold outward_code at 1. rewrite Norm.normalise_idem. reflexivity. Qed.

Lemma scan_offices_outward (a b : string) (org : organisation) (offs : list office) :
  outward_code a = outward_code b -> scan_offices org a offs = scan_offices org b offs.
Proof.
  intros H. induction offs as [|o offs IH]; simpl; [reflexivity|].
  assert (E : office_matches_postcode o a = office_matches_postcode o b)
    by (unfold office_matches_postcode; rewrite H; reflexivity).
  rewrite E. destruct (office_matches_postcode o b); [reflexivity|exact IH].
Qed.

Lemma filter_orgs_outward (a b : string) (orgs : list organisation) :
  outward_code a = outward_code b ->
  forall acc, filter_orgs a orgs acc = filter_orgs b orgs acc.
Proof.
  intros H. induction orgs as [|org orgs IH]; intros acc; simpl; [reflexivity|].
  rewrite (scan_offices_outward a b org _ H).
  destruct (negb (looks_active org)); [apply IH|].
  destruct (scan_offices _ _ _); apply IH.
Qed.

Lemma filter_orgs_seq (pc : string) (l1 : list organisation) : forall l2 acc,
  filter_orgs pc (app l1 l2) acc = filter_orgs pc l2 (filter_orgs pc l1 acc).
Proof.
  induction l1 as [|org l1 IH]; intros l2 acc; simpl; [reflexivity|].
  destruct (negb (looks_active org)); [apply IH|].
  destruct (scan_offices _ _ _); apply IH.
Qed.

End More.

(** ** Properties *)


(** What [normalise_postcode] returns contains no lower-case letter; its
    only whitespace characters are single plain spaces, never two in a row;
    and it neither starts nor ends with whitespace. *)
Theorem normalise_postcode_shape (s : string) :
  let n := normalise_postcode s in
  upper n = n /\ good false n = true /\ lstrip n = n /\ rstrip n = n.
Proof.
  intros n. split; [apply Norm.normalise_upper|]. split; [apply Norm.normalise_good|].
  unfold n, normalise_postcode, strip. split; [|apply Norm.rstrip_idem].
  apply Norm.lstrip_head_ok, Norm.rstrip_head_ok, Norm.lstrip_head.
Qed.

(** An outward code, an optional whitespace character and an inward code,
    in any case: [normalise_postcode] upper-cases them and puts one plain
    space between them when there was a separator, and [outward_code] is the
    upper-cased outward part. *)
Theorem grammar_postcode_normal_form (o sep i : string)
  (Ho : outward_ok o = true) (Hs : sep_ok sep = true) (Hi : inward_ok i = true) :
  normalise_postcode (o ++ sep ++ i)
  = upper o ++ (if String.eqb sep "" then "" else " ") ++ upper i
  /\ outward_code (o ++ sep ++ i) = upper o.
Proof.
  pose proof (Shape.outward_ok_ns o Ho) as [No Lo].
  pose proof (Shape.inward_ok_ns i Hi) as [Ni [d [r [_ [_ Li]]]]].
  assert (NUo : has_space (upper o) = false)
    by (apply Shape.has_space_ns; rewrite Shape.ns_upper; exact No).
  destruct sep as [|c [|c' sep]]; simpl in Hs; try discriminate.
  - change (o ++ "" ++ i) with (o ++ i).
    pose proof (Shape.normalise_nosep o i Ho Hi) as N.
    split; [rewrite N; reflexivity|].
    unfold outward_code. cbv zeta. rewrite N.
    rewrite Shape.has_space_app, NUo,
      (Shape.has_space_ns (upper i)) by (rewrite Shape.ns_upper; exact Ni).
    rewrite More.str_length_app, !Shape.upper_length, Li.
    replace (Nat.ltb 3 (String.length o + 3)) with true
      by (symmetry; apply Nat.ltb_lt; lia).
    rewrite Nat.add_sub, <- (Shape.upper_length o). apply Shape.substring_app.
  - change (o ++ String c "" ++ i) with (o ++ String c i).
    pose proof (Shape.normalise_sep o i c Ho Hs Hi) as N.
    split; [rewrite N; reflexivity|].
    unfold outward_code. cbv zeta. rewrite N.
    rewrite Shape.has_space_app. simpl has_space at 2. rewrite orb_true_r.
    apply Shape.before_space_app, NUo.
Qed.

Lemma grammar_postcode_normal_form_witness :
  normalise_postcode ("sw1a" ++ String "009"%char "" ++ "1aa") = "SW1A 1AA"
  /\ outward_code ("sw1a" ++ String "009"%char "" ++ "1aa") = "SW1A".
Proof.
  destruct (grammar_postcode_normal_form "sw1a" (String "009"%char "") "1aa"
              ltac:(vm_compute; reflexivity) ltac:(vm_compute; reflexivity)
              ltac:(vm_compute; reflexivity)) as [N O].
  split; [exact N|exact O].
Defined.

(** An empty or all-whitespace postcode normalises to the empty string and
    [/search] rejects it with the 422 error without any upstream request. *)
Theorem search_blank_postcode (net : string -> get_result payload) (s : string)
  (Hblank : all_chars is_space s = true) :
  normalise_postcode s = ""
  /\ search_firms net s
     = ([], Raise (HTTPException 422 "Please provide a valid UK postcode.")).
Proof.
  assert (N : normalise_postcode s = "").
  { unfold normalise_postcode, strip.
    rewrite More.lstrip_all_space by (apply More.all_space_sub_ws, More.all_space_upper, Hblank).
    reflexivity. }
  split; [exact N|]. unfold search_firms. rewrite N. reflexivity.
Qed.

Lemma search_blank_postcode_witness :
  normalise_postcode (String "009"%char " ") = ""
  /\ search_firms (fun _ => NetworkFailure "unreachable") (String "009"%char " ")
     = ([], Raise (HTTPException 422 "Please provide a valid UK postcode.")).
Proof.
  exact (search_blank_postcode (fun _ => NetworkFailure "unreachable") (String "009"%char " ")
           ltac:(vm_compute; reflexivity)).
Defined.

(** [call_sra_json] builds the same URL whether or not the host ends with a
    slash and whether or not the path starts with one. *)
Theorem request_url_slashes (base path : string) :
  request_url (base ++ "/") path = request_url base path
  /\ request_url base (String "/" path) = request_url base path.
Proof.
  split; [|reflexivity]. unfold request_url. rewrite More.rstrip_slash_snoc. reflexivity.
Qed.

(** For a valid postcode, [/search] makes exactly the requests of
    [call_sra_json("Organisations")] and passes its error on unchanged; on
    success [count] is the length of [results], there are at most as many
    results as organisations, and each result is the projection of an
    active organisation of the payload and one of its offices whose postcode
    is present, non-empty and has the outward code of the query. *)
Theorem search_valid_postcode_results (net : string -> get_result payload) (p : string)
  (Hvalid : uk_pc_match (normalise_postcode p) = true) :
  fst (search_firms net p) = fst (call_sra_json payload net "Organisations")
  /\ match snd (call_sra_json payload net "Organisations"), snd (search_firms net p) with
     | Raise e, Raise e' => e' = e
     | Ret d, Ret sr =>
         count sr = length (results sr)
         /\ length (results sr) <= length (or_nil (value d))
         /\ forall r, In r (results sr) ->
              exists org o pc, In org (or_nil (value d)) /\ looks_active org = true
                /\ In o (or_nil (Offices org)) /\ PostCode (office_address o) = Some pc
                /\ pc <> "" /\ outward_code pc = outward_code p /\ r = project org o
     | _, _ => False
     end.
Proof.
  unfold search_firms. rewrite Hvalid. simpl negb. cbv iota.
  destruct (call_sra_json payload net "Organisations") as [tried [d|e]]; simpl;
    [|split; reflexivity].
  split; [reflexivity|]. rewrite Filter.filter_orgs_app_spec. simpl.
  split; [reflexivity|]. split; [apply Filter.spec_length|].
  intros r Hr. unfold filter_and_project_spec in Hr. apply in_flat_map in Hr as [org [Horg Hr]].
  destruct (looks_active org) eqn:A; [|contradiction].
  destruct (find _ _) as [o|] eqn:F; [|contradiction].
  destruct Hr as [<-|[]]. apply find_some in F as [Ho Hm].
  unfold office_matches_postcode, office_postcode in Hm.
  destruct (PostCode (office_address o)) as [pc|] eqn:P; simpl in Hm; [|discriminate].
  destruct (String.eqb pc "") eqn:E; [discriminate|].
  exists org, o, pc. repeat split; auto.
  - apply String.eqb_neq, E.
  - apply String.eqb_eq in Hm. rewrite Hm. apply More.outward_code_normalise.
  - symmetry. apply Filter.project_spec_result.
Qed.

Lemma search_valid_postcode_results_witness :
  fst (search_firms (fun _ => NetworkFailure "unreachable") "sw1a 1aa")
  = fst (call_sra_json payload (fun _ => NetworkFailure "unreachable") "Organisations").
Proof.
  exact (proj1 (search_valid_postcode_results (fun _ => NetworkFailure "unreachable")
                  "sw1a 1aa" ltac:(vm_compute; reflexivity))).
Defined.

(** Two valid postcodes with the same outward code give the same [/search]
    requests and response: the inward code is never looked at. *)
Theorem search_same_outward_code (net : string -> get_result payload) (p1 p2 : string)
  (H1 : uk_pc_match (normalise_postcode p1) = true)
  (H2 : uk_pc_match (normalise_postcode p2) = true)
  (Ho : outward_code p1 = outward_code p2) :
  search_firms net p1 = search_firms net p2.
Proof.
  unfold search_firms. rewrite H1, H2. simpl negb. cbv iota.
  destruct (call_sra_json payload net "Organisations") as [tried [d|e]]; [|reflexivity].
  rewrite (More.filter_orgs_outward (normalise_postcode p1) (normalise_postcode p2))
    by (rewrite !More.outward_code_normalise; exact Ho).
  reflexivity.
Qed.

Lemma search_same_outward_code_witness :
  search_firms (fun _ => NetworkFailure "unreachable") "SW1A 1AA"
  = search_firms (fun _ => NetworkFailure "unreachable") "sw1a2bb".
Proof.
  exact (search_same_outward_code (fun _ => NetworkFailure "unreachable") "SW1A 1AA" "sw1a2bb"
           ltac:(vm_compute; reflexivity) ltac:(vm_compute; reflexivity)
           ltac:(vm_compute; reflexivity)).
Defined.


(** The organisation loop of [/search] composes over a split payload: the
    second part continues from the results of the first, and starting from
    no results the lists are concatenated. *)
Theorem filter_orgs_split (pc : string) (l1 l2 : list organisation) :
  (forall acc, filter_orgs pc (app l1 l2) acc = filter_orgs pc l2 (filter_orgs pc l1 acc))
  /\ filter_orgs pc (app l1 l2) [] = app (filter_orgs pc l1 []) (filter_orgs pc l2 []).
Proof.
  split; [intros acc; apply More.filter_orgs_seq|].
  rewrite !Filter.filter_orgs_app_spec. simpl.
  unfold filter_and_project_spec. apply flat_map_app.
Qed.

